(** * The cache manager of the TMDB reverse proxy (main.go)

    A shallow embedding of [CacheManager] and of its operations [Get], [Set],
    [checkCacheSize] and [cleanExpiredCache], followed by the properties
    of the cache that the specification states.

    Modelling choices.
    - [map[string]*CacheEntry] is a [gmap string CacheEntry].  Entries are
      allocated by [Set] and never written afterwards, so the pointer is
      modelled by the value it points to.
    - [time.Time] is an instant on the process clock, in nanoseconds, as a
      [Z]; [time.Duration] is a number of nanoseconds.
    - [[]byte] is [option (list byte)]: [None] is the nil slice.
    - [len] and slice indices are natural numbers.
    - The read-write mutex serialises the operations: every operation is one
      atomic step on the map, written in a small state monad.
    - Go leaves the iteration order of a map unspecified.  Every loop
      [for ... := range cm.cache] takes the order as an [IterOrder], an
      arbitrary rearrangement of the entries of the map. *)

From stdpp Require Import gmap strings list fin_maps pretty sorting.
From Stdlib Require Import ZArith Lia.
From Stdlib.Strings Require Byte.

Local Open Scope Z_scope.

(** ** Constants *)

Definition Time := Z.
Definition Duration := Z.

Definition Nanosecond : Duration := 1.
Definition Second : Duration := 1000000000 * Nanosecond.
Definition Minute : Duration := 60 * Second.

Definition CACHE_DURATION : Duration := 10 * Minute.
Definition MAX_CACHE_SIZE : nat := 1000.
Definition CLEANUP_INTERVAL : Duration := 10 * Minute.

(** [t.After(u)] and [t.Add(d)] of package time. *)
Definition After (t u : Time) : bool := u <? t.
Definition Add (t : Time) (d : Duration) : Time := t + d.

(** ** Data *)

Definition ByteSlice := option (list Byte.byte).

Record CacheEntry := mkCacheEntry {
  Data : ByteSlice;
  Expiry : Time
}.

Global Instance byte_eq_dec : EqDecision Byte.byte := Byte.byte_eq_dec.

Global Instance CacheEntry_eq_dec : EqDecision CacheEntry.
Proof. solve_decision. Defined.

Record CacheManager := mkCacheManager {
  cache : gmap string CacheEntry
}.

(** The order in which one [range] loop visits the entries of the map. *)
Record IterOrder := mkIterOrder {
  iter :> list (string * CacheEntry) → list (string * CacheEntry);
  iter_perm : ∀ l, iter l ≡ₚ l
}.

Program Definition canonicalOrder : IterOrder := {| iter := λ l, l |}.
Next Obligation. done. Qed.

Program Definition reverseOrder : IterOrder := {| iter := reverse |}.
Next Obligation. intros l. apply reverse_Permutation. Qed.

(** ** The state monad of the operations *)

Definition M (A : Type) : Type := CacheManager → A * CacheManager.

Definition ret {A} (a : A) : M A := λ cm, (a, cm).
Definition bind {A B} (c : M A) (k : A → M B) : M B :=
  λ cm, let '(a, cm') := c cm in k a cm'.

Global Instance M_ret : MRet M := @ret.
Global Instance M_bind : MBind M := λ A B k c, bind c k.

Definition exec {A} (c : M A) (cm : CacheManager) : CacheManager := (c cm).2.
Definition eval {A} (c : M A) (cm : CacheManager) : A := (c cm).1.

(** The primitive accesses to [cm.cache]. *)
Definition mapLookup (key : string) : M (option CacheEntry) :=
  λ cm, (cache cm !! key, cm).
Definition mapStore (key : string) (e : CacheEntry) : M unit :=
  λ cm, (tt, {| cache := <[key := e]> (cache cm) |}).
Definition mapDelete (key : string) : M unit :=
  λ cm, (tt, {| cache := delete key (cache cm) |}).
Definition mapLen : M nat :=
  λ cm, (size (cache cm), cm).
Definition mapRange (order : IterOrder) : M (list (string * CacheEntry)) :=
  λ cm, (order (map_to_list (cache cm)), cm).

(** [for _, x := range l { body x }] over a slice or a snapshot. *)
Fixpoint forEach {A} (l : list A) (body : A → M unit) : M unit :=
  match l with
  | [] => mret tt
  | x :: l' => body x ;; forEach l' body
  end.

(** ** NewCacheManager *)

(** The goroutine started here runs [cleanExpiredCache] on every tick; in
    the histories below the sweep is a step that may happen at any time. *)
Definition NewCacheManager : CacheManager := {| cache := ∅ |}.

(** ** Get *)

Definition Get (key : string) (now : Time) : M (ByteSlice * bool) :=
  r ← mapLookup key ;
  match r with
  | None => mret (None, false)
  | Some entry =>
      if After now (Expiry entry) then mret (None, false)
      else mret (Data entry, true)
  end.

(** ** checkCacheSize *)

(** The local type [entry] of [checkCacheSize]. *)
Record entry := mkEntry {
  key : string;
  expiry : Time
}.

(** One execution of the body of the inner loop:
    [if entries[i].expiry.After(entries[j].expiry) { swap }].
    The loops below only produce indices inside the slice. *)
Definition swapIfAfter (i j : nat) (entries : list entry) : list entry :=
  match entries !! i, entries !! j with
  | Some a, Some b =>
      if After (expiry a) (expiry b)
      then <[j := a]> (<[i := b]> entries)
      else entries
  | _, _ => entries
  end.

(** [for j := i + 1; j < len(entries); j++ { ... }] *)
Definition innerLoop (i : nat) (entries : list entry) : list entry :=
  foldl (λ acc j, swapIfAfter i j acc) entries
        (seq (S i) (length entries - S i)).

(** [for i := 0; i < len(entries)-1; i++ { ... }] *)
Definition sortByExpiry (entries : list entry) : list entry :=
  foldl (λ acc i, innerLoop i acc) entries (seq 0 (length entries - 1)).

(** [entry{key: key, expiry: val.Expiry}] *)
Definition entryOf (kv : string * CacheEntry) : entry :=
  {| key := kv.1; expiry := Expiry kv.2 |}.

Definition checkCacheSize (order : IterOrder) : M unit :=
  n ← mapLen ;
  if (n <=? MAX_CACHE_SIZE)%nat then mret tt
  else
    kvs ← mapRange order ;
    let entries := entryOf <$> kvs in
    let entries := sortByExpiry entries in
    n' ← mapLen ;
    let deleteCount := (n' - MAX_CACHE_SIZE)%nat in
    forEach (seq 0 deleteCount) (λ i,
      match entries !! i with
      | Some e => mapDelete (key e)
      | None => mret tt
      end).

(** ** Set *)

Definition Set_ (order : IterOrder) (key : string) (data : ByteSlice)
    (now : Time) : M unit :=
  checkCacheSize order ;;
  mapStore key {| Data := data; Expiry := Add now CACHE_DURATION |}.

(** ** cleanExpiredCache *)

Definition cleanExpiredCache (order : IterOrder) (now : Time) : M unit :=
  kvs ← mapRange order ;
  forEach kvs (λ kv,
    if After now (Expiry kv.2) then mapDelete kv.1 else mret tt).

(** ** Histories *)

(** The calls that reach a cache manager: the handler's [Get] and [Set],
    and the sweep of the cleanup goroutine. *)
Inductive Op :=
  | OpSet (order : IterOrder) (key : string) (data : ByteSlice) (now : Time)
  | OpGet (key : string) (now : Time)
  | OpSweep (order : IterOrder) (now : Time).

Definition step (op : Op) : M unit :=
  match op with
  | OpSet order key data now => Set_ order key data now
  | OpGet key now => Get key now ;; mret tt
  | OpSweep order now => cleanExpiredCache order now
  end.

Definition run (ops : list Op) : M unit := forEach ops step.

(** The instant of the last [Set] of [k] in a history, with its payload. *)
Fixpoint lastSet (ops : list Op) (k : string) : option (ByteSlice * Time) :=
  match ops with
  | [] => None
  | op :: ops' =>
      match lastSet ops' k with
      | Some r => Some r
      | None =>
          match op with
          | OpSet _ key data now =>
              if decide (key = k) then Some (data, now) else None
          | _ => None
          end
      end
  end.

(** ** A handler workload *)

(** The handler uses the request URI as cache key; [keyOf i] is the URI of
    the [i]-th distinct request of a workload. *)
Definition keyOf (i : nat) : string := "/3/movie/" +:+ pretty i.

Definition bodyOf (i : nat) : ByteSlice :=
  Some (String.list_byte_of_string (pretty i)).

(** One call [cacheManager.Set(key, data)] of the handler: the order of
    the range loop of its capacity check, its arguments, and the instant
    that [time.Now()] returns in it. *)
Record SetCall := mkSetCall {
  scOrder : IterOrder;
  scKey : string;
  scData : ByteSlice;
  scTime : Time
}.

Definition opOf (c : SetCall) : Op :=
  OpSet (scOrder c) (scKey c) (scData c) (scTime c).

(** The binding that the call leaves in the map. *)
Definition stored (c : SetCall) : string * CacheEntry :=
  (scKey c, {| Data := scData c; Expiry := Add (scTime c) CACHE_DURATION |}).

(** The calls happen at strictly increasing instants. *)
Definition increasing (l : list SetCall) : Prop :=
  ∀ (i j : nat) a b, (i < j)%nat → l !! i = Some a → l !! j = Some b →
    scTime a < scTime b.

(** The last [MAX_CACHE_SIZE + 1] calls of a sequence. *)
Definition recent (l : list SetCall) : list SetCall :=
  drop (length l - (MAX_CACHE_SIZE + 1)) l.

(** [n] cache misses in a row, on distinct URIs, the [i]-th one stored at
    instant [i]: the handler calls [Set] once per miss. *)
Definition calls (order : IterOrder) (n : nat) : list SetCall :=
  (λ i, mkSetCall order (keyOf i) (bodyOf i) (Z.of_nat i)) <$> seq 0 n.

Definition fill (order : IterOrder) (n : nat) : list Op :=
  opOf <$> calls order n.

(** ** startCleanup *)

(** [for range ticker.C { cm.cleanExpiredCache() }] never returns;
    [startCleanup ticks] is the loop over its first ticks, each with the
    order of the range loop of its sweep and the instant that [time.Now()]
    returns in it. *)
Definition startCleanup (ticks : list (IterOrder * Time)) : M unit :=
  forEach ticks (λ tick, cleanExpiredCache tick.1 tick.2).

(** ** The handler *)

Definition TMDB_BASE_URL : string := "https://api.themoviedb.org".

Definition MethodOptions : string := "OPTIONS".
Definition StatusOK : Z := 200.
Definition StatusInternalServerError : Z := 500.
Definition StatusBadGateway : Z := 502.

(** [http.ResponseWriter], after the contract of net/http: [Header()] is a
    map from names to lists of values that the handler mutates;
    [WriteHeader] sends the status with the headers as they are at that
    moment, once; [Write] sends the status 200 first when none was sent. *)
Record ResponseWriter := mkResponseWriter {
  Header : gmap string (list string);
  Sent : option (Z * gmap string (list string));
  Written : list Byte.byte
}.

Definition newResponseWriter : ResponseWriter :=
  {| Header := ∅; Sent := None; Written := [] |}.

(** [w.Header().Set(name, value)] *)
Definition HeaderSet (name value : string) (w : ResponseWriter) :
    ResponseWriter :=
  {| Header := <[name := [value]]> (Header w);
     Sent := Sent w; Written := Written w |}.

Definition WriteHeader (statusCode : Z) (w : ResponseWriter) :
    ResponseWriter :=
  match Sent w with
  | Some _ => w
  | None => {| Header := Header w; Sent := Some (statusCode, Header w);
               Written := Written w |}
  end.

Definition bytesOf (b : ByteSlice) : list Byte.byte := default [] b.

Definition Write (b : ByteSlice) (w : ResponseWriter) : ResponseWriter :=
  let w := WriteHeader StatusOK w in
  {| Header := Header w; Sent := Sent w;
     Written := Written w ++ bytesOf b |}.

(** What the handler reads of [*http.Request]: [r.Method],
    [r.URL.RequestURI()], [r.Header.Get("Authorization")] (empty when the
    header is absent) and [r.Body]. *)
Record Request := mkRequest {
  Method : string;
  RequestURI : string;
  Authorization : string;
  Body : ByteSlice
}.

(** The request that the handler sends upstream. *)
Record OutRequest := mkOutRequest {
  outMethod : string;
  outURL : string;
  outAuthorization : option string;
  outBody : ByteSlice
}.

(** [*http.Response] as the handler uses it: the status code and what
    [io.ReadAll(resp.Body)] returns, an error message or the body. *)
Record Response := mkResponse {
  StatusCode : Z;
  ReadAll : string + list Byte.byte
}.

(** The library and the network around one call of the handler: the error
    of [http.NewRequest] for a method and a URL, if any; the outcome of
    [client.Do], an error message or a response; and the bytes that
    [json.NewEncoder(w).Encode] writes for the map with the one key
    "error". *)
Record Env := mkEnv {
  NewRequestErr : string → string → option string;
  Do : OutRequest → string + Response;
  EncodeError : string → list Byte.byte
}.

Definition sendErrorResponse (env : Env) (w : ResponseWriter)
    (statusCode : Z) (message : string) : ResponseWriter :=
  let w := HeaderSet "Content-Type" "application/json" w in
  let w := WriteHeader statusCode w in
  Write (Some (EncodeError env message)) w.

(** One call of [handler] on the global [cacheManager], the state of the
    monad.  [tGet] and [tSet] are the instants that [time.Now()] returns in
    [Get] and in [Set], [order] is the order of the range loop in [Set].
    The result is the response writer when the handler returns and the
    requests sent upstream.  Log lines are not modelled. *)
Definition handler (env : Env) (order : IterOrder) (tGet tSet : Time)
    (r : Request) : M (ResponseWriter * list OutRequest) :=
  let w := newResponseWriter in
  let w := HeaderSet "Access-Control-Allow-Origin" "*" w in
  let w := HeaderSet "Access-Control-Allow-Methods" "GET, POST, OPTIONS" w in
  let w := HeaderSet "Access-Control-Allow-Headers"
                     "Content-Type, Authorization" w in
  if decide (Method r = MethodOptions) then
    mret (WriteHeader StatusOK w, [])
  else
    let fullPath := RequestURI r in
    let cacheKey := fullPath in
    '(cachedData, found) ← Get cacheKey tGet ;
    if found : bool then
      let w := HeaderSet "Content-Type" "application/json" w in
      let w := WriteHeader StatusOK w in
      mret (Write cachedData w, [])
    else
      let tmdbURL := TMDB_BASE_URL +:+ fullPath in
      match NewRequestErr env (Method r) tmdbURL with
      | Some err =>
          mret (sendErrorResponse env w StatusInternalServerError err, [])
      | None =>
          let req :=
            {| outMethod := Method r; outURL := tmdbURL;
               outAuthorization :=
                 if decide (Authorization r = "") then None
                 else Some (Authorization r);
               outBody := Body r |} in
          match Do env req with
          | inl err =>
              mret (sendErrorResponse env w StatusBadGateway err, [req])
          | inr resp =>
              match ReadAll resp with
              | inl err =>
                  mret (sendErrorResponse env w StatusInternalServerError
                          err, [req])
              | inr body =>
                  (if decide (StatusCode resp = StatusOK)
                   then Set_ order cacheKey (Some body) tSet
                   else (mret tt : M unit)) ;;
                  let w := HeaderSet "Content-Type" "application/json" w in
                  let w := WriteHeader (StatusCode resp) w in
                  mret (Write (Some body) w, [req])
              end
          end
      end.

(** ** The server *)

(** What happens to the cache manager while the server runs: calls of the
    handler and ticks of the cleanup goroutine, serialised by the lock. *)
Inductive Event :=
  | EvRequest (env : Env) (order : IterOrder) (tGet tSet : Time)
              (r : Request)
  | EvTick (order : IterOrder) (now : Time).

Definition occur (ev : Event) : M unit :=
  match ev with
  | EvRequest env order tGet tSet r =>
      handler env order tGet tSet r ;; mret tt
  | EvTick order now => cleanExpiredCache order now
  end.

Definition serve (evs : list Event) : M unit := forEach evs occur.

(** The request that the handler builds for [r]: same method and body,
    the URI appended to the base URL, and the Authorization header when it
    is not empty. *)
Definition upstreamRequest (r : Request) : OutRequest :=
  {| outMethod := Method r;
     outURL := TMDB_BASE_URL +:+ RequestURI r;
     outAuthorization :=
       if decide (Authorization r = "") then None
       else Some (Authorization r);
     outBody := Body r |}.

(** The request of the event fetched [body] from upstream with status 200
    for the URI [k] and stored it at instant [t]. *)
Definition fetched (k : string) (body : list Byte.byte) (t : Time)
    (ev : Event) : Prop :=
  match ev with
  | EvRequest env order tGet tSet r =>
      RequestURI r = k ∧ tSet = t ∧ Method r ≠ MethodOptions ∧
      NewRequestErr env (Method r) (TMDB_BASE_URL +:+ k) = None ∧
      ∃ resp,
        Do env (upstreamRequest r) = inr resp ∧
        StatusCode resp = StatusOK ∧ ReadAll resp = inr body
  | EvTick _ _ => False
  end.

(** The headers that the handler sets first. *)
Definition corsHeaders : gmap string (list string) :=
  <["Access-Control-Allow-Headers" := ["Content-Type, Authorization"]]>
    (<["Access-Control-Allow-Methods" := ["GET, POST, OPTIONS"]]>
       (<["Access-Control-Allow-Origin" := ["*"]]> ∅)).

Definition jsonHeaders : gmap string (list string) :=
  <["Content-Type" := ["application/json"]]> corsHeaders.

(** A response with the JSON content type, a status and a body. *)
Definition jsonResponse (statusCode : Z) (body : list Byte.byte) :
    ResponseWriter :=
  {| Header := jsonHeaders; Sent := Some (statusCode, jsonHeaders);
     Written := body |}.

(** [Get] misses for the request. *)
Definition miss (r : Request) (tGet : Time) (cm : CacheManager) : Prop :=
  (eval (Get (RequestURI r) tGet) cm).2 = false.

(** ** Vocabulary of the proofs *)

(** The cells before [n] are in their final place: each one expires no
    later than every cell that follows it. *)
Definition prefixSorted (n : nat) (es : list entry) : Prop :=
  ∀ (a b : nat) x y, (a < n)%nat → (a < b)%nat →
    es !! a = Some x → es !! b = Some y → expiry x ≤ expiry y.

(** Cell [i] expires no later than the cells between [i] and [j]. *)
Definition minUpto (i j : nat) (es : list entry) : Prop :=
  ∀ (b : nat) x y, (i < b < j)%nat →
    es !! i = Some x → es !! b = Some y → expiry x ≤ expiry y.

(** The order of the sort: [x] expires no later than [y]. *)
Definition expiryLe (x y : entry) : Prop := expiry x ≤ expiry y.


(** The map after [delete(m, k)] for each [k] of [ks], in turn. *)
Definition deleteKeys (ks : list string) (m : gmap string CacheEntry) :
    gmap string CacheEntry :=
  foldl (λ acc k, delete k acc) m ks.

(** The slice [entries] of [checkCacheSize] when the deletions start. *)
Definition evictionOrder (order : IterOrder) (m : gmap string CacheEntry) :
    list entry :=
  sortByExpiry (entryOf <$> order (map_to_list m)).

(** The entries that a sweep at [now] leaves in place. *)
Definition live (now : Time) (kv : string * CacheEntry) : Prop :=
  After now (Expiry kv.2) = false.

Global Instance live_dec now kv : Decision (live now kv).
Proof. unfold live. apply _. Defined.

(** * Properties *)

(** ** The monad *)

Lemma exec_bind {A B} (c : M A) (k : A → M B) cm :
  exec (c ≫= k) cm = exec (k (eval c cm)) (exec c cm).
Proof.
  unfold exec, eval, mbind, M_bind, bind. by destruct (c cm).
Qed.

Lemma eval_bind {A B} (c : M A) (k : A → M B) cm :
  eval (c ≫= k) cm = eval (k (eval c cm)) (exec c cm).
Proof.
  unfold exec, eval, mbind, M_bind, bind. by destruct (c cm).
Qed.

Lemma exec_ret {A} (a : A) cm : exec (mret a) cm = cm.
Proof. done. Qed.

Lemma eval_ret {A} (a : A) cm : eval (mret a) cm = a.
Proof. done. Qed.

Lemma exec_forEach_app {A} (l1 l2 : list A) body cm :
  exec (forEach (l1 ++ l2) body) cm
  = exec (forEach l2 body) (exec (forEach l1 body) cm).
Proof.
  revert cm. induction l1 as [|x l1 IH]; intros cm; simpl; [done|].
  by rewrite !exec_bind, IH.
Qed.

(** ** The sort of checkCacheSize *)

Section sort.
Local Open Scope nat_scope.
Implicit Types (i j n : nat) (es : list entry).

(** Exchanging two cells of a slice rearranges it. *)
Lemma list_swap_Permutation {A} (l : list A) i j a b :
  l !! i = Some a → l !! j = Some b →
  <[j := a]> (<[i := b]> l) ≡ₚ l.
Proof.
  intros Hi Hj.
  assert (i < length l) by by eapply lookup_lt_Some.
  assert (j < length l) by by eapply lookup_lt_Some.
  apply Permutation_inj. split; [by rewrite !length_insert|].
  exists (λ k, if decide (k = i) then j else if decide (k = j) then i else k).
  split.
  - intros x y. repeat case_decide; intros; subst; congruence.
  - intros k. destruct (decide (k = j)) as [->|Hkj].
    + rewrite list_lookup_insert_eq by (rewrite length_insert; lia).
      case_decide; subst; congruence.
    + rewrite list_lookup_insert_ne by done.
      destruct (decide (k = i)) as [->|Hki].
      * by rewrite list_lookup_insert_eq by lia.
      * by rewrite list_lookup_insert_ne by done.
Qed.

Lemma swapIfAfter_perm i j es : swapIfAfter i j es ≡ₚ es.
Proof.
  unfold swapIfAfter.
  destruct (es !! i) as [a|] eqn:Hi; [|done].
  destruct (es !! j) as [b|] eqn:Hj; [|done].
  destruct (After _ _); [|done]. by apply list_swap_Permutation.
Qed.

Lemma swapIfAfter_length i j es : length (swapIfAfter i j es) = length es.
Proof. apply Permutation_length, swapIfAfter_perm. Qed.

Lemma innerLoop_perm i es : innerLoop i es ≡ₚ es.
Proof.
  unfold innerLoop. generalize (seq (S i) (length es - S i)) as js.
  intros js. revert es. induction js as [|j js IH]; intros es; simpl; [done|].
  by rewrite IH, swapIfAfter_perm.
Qed.

Lemma sortByExpiry_perm es : sortByExpiry es ≡ₚ es.
Proof.
  unfold sortByExpiry. generalize (seq 0 (length es - 1)) as js.
  intros js. revert es. induction js as [|j js IH]; intros es; simpl; [done|].
  by rewrite IH, innerLoop_perm.
Qed.

Lemma swapIfAfter_lookup i j es k :
  i < j → j < length es →
  swapIfAfter i j es !! k =
    if decide (k = j) then
      (x ← es !! i; y ← es !! j;
       Some (if After (expiry x) (expiry y) then x else y))
    else if decide (k = i) then
      (x ← es !! i; y ← es !! j;
       Some (if After (expiry x) (expiry y) then y else x))
    else es !! k.
Proof.
  intros Hij Hj. unfold swapIfAfter.
  destruct (lookup_lt_is_Some_2 es i) as [x Hx]; [lia|].
  destruct (lookup_lt_is_Some_2 es j) as [y Hy]; [lia|].
  rewrite Hx, Hy. simpl.
  destruct (After (expiry x) (expiry y)).
  - destruct (decide (k = j)) as [->|?].
    + by rewrite list_lookup_insert_eq by (rewrite length_insert; lia).
    + rewrite list_lookup_insert_ne by done.
      destruct (decide (k = i)) as [->|?].
      * by rewrite list_lookup_insert_eq by lia.
      * by rewrite list_lookup_insert_ne by done.
  - repeat case_decide; subst; done.
Qed.

Lemma swapIfAfter_prefixSorted i j es :
  i < j → j < length es →
  prefixSorted i es → prefixSorted i (swapIfAfter i j es).
Proof.
  intros Hij Hj Hs a b x y Ha Hab.
  rewrite !swapIfAfter_lookup by done.
  rewrite (decide_False (P := a = j)), (decide_False (P := a = i)) by lia.
  intros Hx.
  destruct (lookup_lt_is_Some_2 es i) as [xi Hxi]; [lia|].
  destruct (lookup_lt_is_Some_2 es j) as [xj Hxj]; [lia|].
  rewrite Hxi, Hxj. simpl.
  pose proof (Hs a i x xi Ha ltac:(lia) Hx Hxi).
  pose proof (Hs a j x xj Ha ltac:(lia) Hx Hxj).
  repeat case_decide; intros Hy; simplify_eq.
  - by destruct (After _ _).
  - by destruct (After _ _).
  - by eapply Hs.
Qed.

Lemma swapIfAfter_minUpto i j es :
  i < j → j < length es →
  minUpto i j es → minUpto i (S j) (swapIfAfter i j es).
Proof.
  intros Hij Hj Hm b x y Hb.
  rewrite !swapIfAfter_lookup by done.
  rewrite (decide_False (P := i = j)), (decide_True (P := i = i)) by lia.
  rewrite (decide_False (P := b = i)) by lia.
  destruct (lookup_lt_is_Some_2 es i) as [xi Hxi]; [lia|].
  destruct (lookup_lt_is_Some_2 es j) as [xj Hxj]; [lia|].
  rewrite Hxi, Hxj. simpl. unfold After.
  intros Hx. case_decide as Hbj; intros Hy; simplify_eq.
  - destruct (Z.ltb_spec (expiry xj) (expiry xi)); lia.
  - pose proof (Hm b xi y ltac:(lia) Hxi Hy).
    destruct (Z.ltb_spec (expiry xj) (expiry xi)); lia.
Qed.

Lemma innerLoop_from i es j n :
  i < j → j + n = length es →
  prefixSorted i es → minUpto i j es →
  let es' := foldl (λ acc j, swapIfAfter i j acc) es (seq j n) in
  prefixSorted i es' ∧ minUpto i (length es) es'.
Proof.
  revert j es. induction n as [|n IH]; intros j es Hij Hlen Hs Hm; simpl.
  - split; [done|]. by replace (length es) with j by lia.
  - pose proof (swapIfAfter_length i j es) as Hl.
    rewrite <-Hl. apply IH; [lia|lia| |].
    + apply swapIfAfter_prefixSorted; [done|lia|done].
    + apply swapIfAfter_minUpto; [done|lia|done].
Qed.

Lemma innerLoop_prefixSorted i es :
  S i < length es → prefixSorted i es → prefixSorted (S i) (innerLoop i es).
Proof.
  intros Hi Hs.
  destruct (innerLoop_from i es (S i) (length es - S i)) as [Hs' Hm'];
    [lia|lia|done| |].
  { intros b x y ?. lia. }
  fold (innerLoop i es) in Hs', Hm'.
  intros a b x y Ha Hab Hx Hy.
  destruct (decide (a = i)) as [->|].
  - eapply Hm'; [|done..]. split; [done|].
    rewrite <-(Permutation_length (innerLoop_perm i es)).
    by eapply lookup_lt_Some.
  - eapply Hs'; [|done..]. lia.
Qed.

Lemma sortByExpiry_from es i n :
  i + n < length es ∨ n = 0 → prefixSorted i es →
  prefixSorted (i + n) (foldl (λ acc i, innerLoop i acc) es (seq i n)).
Proof.
  revert i es. induction n as [|n IH]; intros i es Hlen Hs; simpl.
  - by rewrite Nat.add_0_r.
  - replace (i + S n) with (S i + n) by lia. apply IH.
    + rewrite (Permutation_length (innerLoop_perm i es)). lia.
    + apply innerLoop_prefixSorted; [lia|done].
Qed.

(** The two loops leave the slice in ascending order of expiry. *)
Lemma sortByExpiry_sorted es a b x y :
  a < b → sortByExpiry es !! a = Some x → sortByExpiry es !! b = Some y →
  (expiry x ≤ expiry y)%Z.
Proof.
  intros Hab Hx Hy.
  assert (b < length es) as Hb.
  { rewrite <-(Permutation_length (sortByExpiry_perm es)).
    by eapply lookup_lt_Some. }
  assert (prefixSorted (0 + (length es - 1)) (sortByExpiry es)) as Hs.
  { apply sortByExpiry_from; [lia|]. intros ?????. lia. }
  eapply Hs; [|exact Hab|exact Hx|exact Hy]. lia.
Qed.
End sort.

Example sortByExpiry_example :
  sortByExpiry [mkEntry "a" 5; mkEntry "b" 3; mkEntry "c" 4; mkEntry "d" 1;
                mkEntry "e" 3]
  = [mkEntry "d" 1; mkEntry "b" 3; mkEntry "e" 3; mkEntry "c" 4;
     mkEntry "a" 5].
Proof. reflexivity. Qed.

(** ** Deleting a list of keys *)

Section deleteKeys.
Local Open Scope nat_scope.
Implicit Types (ks : list string) (m : gmap string CacheEntry).

Lemma lookup_deleteKeys ks m k :
  deleteKeys ks m !! k = if decide (k ∈ ks) then None else m !! k.
Proof.
  revert m. induction ks as [|k0 ks IH]; intros m.
  - rewrite decide_False; [done|]. by intros ?%elem_of_nil.
  - change (deleteKeys (k0 :: ks) m) with (deleteKeys ks (delete k0 m)).
    rewrite IH. destruct (decide (k ∈ ks)) as [Hin|Hin].
    + rewrite decide_True; [done|]. by right.
    + destruct (decide (k = k0)) as [->|Hne].
      * rewrite decide_True by left. apply lookup_delete_eq.
      * rewrite decide_False; [by apply lookup_delete_ne|].
        intros [?|?]%elem_of_cons; done.
Qed.

Lemma deleteKeys_subseteq ks m : deleteKeys ks m ⊆ m.
Proof.
  apply map_subseteq_spec. intros k x. rewrite lookup_deleteKeys.
  by case_decide.
Qed.

Lemma size_deleteKeys ks m :
  NoDup ks → (∀ k, k ∈ ks → is_Some (m !! k)) →
  size (deleteKeys ks m) + length ks = size m.
Proof.
  revert m. induction ks as [|k0 ks IH]; intros m Hnd Hin; simpl.
  - unfold deleteKeys. simpl. lia.
  - apply NoDup_cons in Hnd as [Hk0 Hnd].
    change (deleteKeys (k0 :: ks) m) with (deleteKeys ks (delete k0 m)).
    destruct (Hin k0) as [x Hx]; [left|].
    assert (size m = S (size (delete k0 m))) as Hsz.
    { rewrite <-(insert_id m k0 x Hx) at 1. rewrite <-insert_delete_eq.
      apply map_size_insert_None, lookup_delete_eq. }
    rewrite Hsz, <-(IH (delete k0 m)); [lia|done|].
    intros k Hk. rewrite lookup_delete_ne; [apply Hin; by right|].
    intros ->. done.
Qed.

(** A loop whose body deletes at most one key per element. *)
Lemma forEach_deleteKeys {A} (l : list A) body (f : A → option string) :
  (∀ x cm, cache (exec (body x) cm)
           = from_option (λ k, delete k (cache cm)) (cache cm) (f x)) →
  ∀ cm, cache (exec (forEach l body) cm) = deleteKeys (omap f l) (cache cm).
Proof.
  intros Hbody. induction l as [|x l IH]; intros cm; simpl; [done|].
  rewrite exec_bind, IH, Hbody.
  by destruct (f x).
Qed.

Lemma omap_lookup_seq {A B} (g : A → B) (l : list A) d :
  d ≤ length l →
  omap (λ i, g <$> l !! i) (seq 0 d) = g <$> take d l.
Proof.
  induction d as [|d IH]; intros Hd.
  - by rewrite take_0.
  - destruct (lookup_lt_is_Some_2 l d) as [x Hx]; [lia|].
    rewrite seq_S, omap_app, IH by lia. simpl.
    rewrite Hx. simpl. by rewrite (take_S_r _ _ x), fmap_app.
Qed.
End deleteKeys.

(** ** Get *)

Lemma Get_exec k now cm : exec (Get k now) cm = cm.
Proof.
  unfold Get. rewrite exec_bind. unfold mapLookup at 2. unfold exec at 2.
  simpl. destruct (eval _ _) as [e|]; [|done]. by destruct (After _ _).
Qed.

Lemma Get_eval k now cm :
  eval (Get k now) cm =
    match cache cm !! k with
    | Some e => if After now (Expiry e) then (None, false) else (Data e, true)
    | None => (None, false)
    end.
Proof.
  unfold Get. rewrite eval_bind. unfold mapLookup. unfold eval at 2, exec.
  simpl. destruct (cache cm !! k) as [e|]; [|done]. by destruct (After _ _).
Qed.

(** ** checkCacheSize *)

Section checkCacheSize.
Local Open Scope nat_scope.
Implicit Types (order : IterOrder) (m : gmap string CacheEntry).

Lemma CacheManager_eq (cm cm' : CacheManager) :
  cache cm = cache cm' → cm = cm'.
Proof. destruct cm, cm'. simpl. by intros ->. Qed.

Lemma evictionOrder_perm order m :
  evictionOrder order m ≡ₚ entryOf <$> map_to_list m.
Proof.
  unfold evictionOrder. by rewrite sortByExpiry_perm, (iter_perm order).
Qed.

Lemma evictionOrder_length order m : length (evictionOrder order m) = size m.
Proof.
  by rewrite (Permutation_length (evictionOrder_perm order m)),
    length_fmap, length_map_to_list.
Qed.

Lemma evictionOrder_keys order m :
  key <$> evictionOrder order m ≡ₚ (map_to_list m).*1.
Proof.
  rewrite (evictionOrder_perm order m), <-list_fmap_compose.
  done.
Qed.

Lemma evictionOrder_NoDup order m : NoDup (key <$> evictionOrder order m).
Proof. rewrite evictionOrder_keys. apply NoDup_fst_map_to_list. Qed.

Lemma elem_of_evictionOrder order m x :
  x ∈ evictionOrder order m ↔
  ∃ e, m !! key x = Some e ∧ expiry x = Expiry e.
Proof.
  rewrite (evictionOrder_perm order m), list_elem_of_fmap. split.
  - intros ([k e] & -> & Hin%elem_of_map_to_list). by exists e.
  - intros (e & Hk & Hx). exists (key x, e). split.
    + destruct x. simpl in *. unfold entryOf. simpl. by rewrite Hx.
    + by apply elem_of_map_to_list.
Qed.

Lemma checkCacheSize_cache order cm :
  cache (exec (checkCacheSize order) cm) =
    if size (cache cm) <=? MAX_CACHE_SIZE then cache cm
    else deleteKeys
           (key <$> take (size (cache cm) - MAX_CACHE_SIZE)
                         (evictionOrder order (cache cm)))
           (cache cm).
Proof.
  unfold checkCacheSize. rewrite exec_bind.
  change (eval mapLen cm) with (size (cache cm)).
  change (exec mapLen cm) with cm.
  destruct (size (cache cm) <=? MAX_CACHE_SIZE); [done|].
  rewrite exec_bind.
  change (exec (mapRange order) cm) with cm.
  change (eval (mapRange order) cm) with (order (map_to_list (cache cm))).
  rewrite exec_bind.
  change (eval mapLen cm) with (size (cache cm)).
  change (exec mapLen cm) with cm.
  fold (evictionOrder order (cache cm)).
  rewrite (forEach_deleteKeys _ _
    (λ i, key <$> evictionOrder order (cache cm) !! i)).
  - rewrite omap_lookup_seq; [done|]. rewrite evictionOrder_length. lia.
  - intros i cm'. by destruct (_ !! i).
Qed.

Lemma checkCacheSize_noop order cm :
  size (cache cm) ≤ MAX_CACHE_SIZE → exec (checkCacheSize order) cm = cm.
Proof.
  intros Hle. apply CacheManager_eq. rewrite checkCacheSize_cache.
  by apply Nat.leb_le in Hle as ->.
Qed.

Lemma checkCacheSize_subseteq order cm :
  cache (exec (checkCacheSize order) cm) ⊆ cache cm.
Proof.
  rewrite checkCacheSize_cache. destruct (_ <=? _); [done|].
  apply deleteKeys_subseteq.
Qed.

Lemma checkCacheSize_trim order cm :
  MAX_CACHE_SIZE < size (cache cm) →
  size (cache (exec (checkCacheSize order) cm)) = MAX_CACHE_SIZE.
Proof.
  intros Hlt. rewrite checkCacheSize_cache.
  apply Nat.leb_gt in Hlt as Hlt'. rewrite Hlt'.
  set (d := size (cache cm) - MAX_CACHE_SIZE).
  set (s := evictionOrder order (cache cm)).
  pose proof (size_deleteKeys (key <$> take d s) (cache cm)) as Hsz.
  rewrite length_fmap, length_take in Hsz.
  assert (length s = size (cache cm)) as Hlen
    by apply evictionOrder_length.
  rewrite Hlen in Hsz.
  cut (size (deleteKeys (key <$> take d s) (cache cm)) + d
       = size (cache cm)); [subst d; lia|].
  replace (d `min` size (cache cm)) with d in Hsz by (subst d; lia).
  apply Hsz.
  - rewrite fmap_take.
    eapply sublist_NoDup; [apply evictionOrder_NoDup|apply sublist_take].
  - intros k (x & -> & Hx)%list_elem_of_fmap.
    apply elem_of_take in Hx as (i & Hi & _).
    apply list_elem_of_lookup_2, elem_of_evictionOrder in Hi as (e & He & _).
    by exists e.
Qed.

Lemma checkCacheSize_size order cm :
  size (cache (exec (checkCacheSize order) cm)) ≤ MAX_CACHE_SIZE.
Proof.
  destruct (decide (size (cache cm) ≤ MAX_CACHE_SIZE)).
  - by rewrite checkCacheSize_noop.
  - rewrite checkCacheSize_trim; lia.
Qed.

(** What goes expires no later than what stays. *)
Lemma checkCacheSize_earliest order cm k e k' e' :
  cache cm !! k = Some e →
  cache (exec (checkCacheSize order) cm) !! k = None →
  cache (exec (checkCacheSize order) cm) !! k' = Some e' →
  (Expiry e ≤ Expiry e')%Z.
Proof.
  rewrite checkCacheSize_cache.
  destruct (_ <=? _); [congruence|].
  set (d := size (cache cm) - MAX_CACHE_SIZE).
  set (s := evictionOrder order (cache cm)).
  intros Hk. rewrite !lookup_deleteKeys.
  destruct (decide (k ∈ _)) as [Hin|]; [intros _|congruence].
  destruct (decide (k' ∈ _)) as [|Hnin]; [done|intros Hk'].
  apply list_elem_of_fmap in Hin as (x & -> & Hx).
  apply elem_of_take in Hx as (a & Ha & Had).
  pose proof (list_elem_of_lookup_2 _ _ _ Ha) as Hxs.
  apply elem_of_evictionOrder in Hxs as (e0 & He0 & Hexp).
  assert (mkEntry k' (Expiry e') ∈ s) as Hy.
  { apply elem_of_evictionOrder. by exists e'. }
  apply list_elem_of_lookup_1 in Hy as (b & Hb).
  assert (d ≤ b) as Hdb.
  { apply Nat.nlt_ge. intros Hlt. apply Hnin.
    apply list_elem_of_fmap. exists (mkEntry k' (Expiry e')).
    split; [done|]. apply elem_of_take. eauto. }
  replace e with e0 by congruence. rewrite <-Hexp.
  change (Expiry e') with (expiry (mkEntry k' (Expiry e'))).
  eapply (sortByExpiry_sorted _ a b); [lia|exact Ha|exact Hb].
Qed.
End checkCacheSize.

(** ** Iteration orders *)

(** Every rearrangement of the entries of a map is the order of some
    [range] loop of the model. *)
Lemma IterOrder_complete (m : gmap string CacheEntry) l :
  l ≡ₚ map_to_list m → ∃ order : IterOrder, order (map_to_list m) = l.
Proof.
  intros Hl.
  assert (∀ l0, (if decide (l0 = map_to_list m) then l else l0) ≡ₚ l0) as Hp.
  { intros l0. case_decide; by subst. }
  exists (mkIterOrder _ Hp). simpl. by rewrite decide_True.
Qed.

(** ** Set *)

Lemma Set_cache order k data now cm :
  cache (exec (Set_ order k data now) cm)
  = <[k := {| Data := data; Expiry := Add now CACHE_DURATION |}]>
      (cache (exec (checkCacheSize order) cm)).
Proof. unfold Set_. by rewrite exec_bind. Qed.

Lemma Set_size order k data now cm :
  (size (cache (exec (Set_ order k data now) cm))
   ≤ S (size (cache (exec (checkCacheSize order) cm))))%nat.
Proof.
  rewrite Set_cache, map_size_insert. destruct (_ !! k); simpl; lia.
Qed.

Lemma Set_lookup_eq order k data now cm :
  cache (exec (Set_ order k data now) cm) !! k
  = Some {| Data := data; Expiry := Add now CACHE_DURATION |}.
Proof. by rewrite Set_cache, lookup_insert_eq. Qed.

(** ** cleanExpiredCache *)

Lemma cleanExpiredCache_cache order now cm :
  cache (exec (cleanExpiredCache order now) cm) = filter (live now) (cache cm).
Proof.
  unfold cleanExpiredCache. rewrite exec_bind.
  change (exec (mapRange order) cm) with cm.
  change (eval (mapRange order) cm) with (order (map_to_list (cache cm))).
  rewrite (forEach_deleteKeys _ _
    (λ kv, if After now (Expiry kv.2) then Some kv.1 else None)).
  2:{ intros kv cm'. by destruct (After _ _). }
  apply map_eq. intros k.
  rewrite lookup_deleteKeys, map_lookup_filter.
  destruct (decide (k ∈ _)) as [Hin|Hnin].
  - apply list_elem_of_omap in Hin as ([k' e] & Hin & Hf). simpl in Hf.
    rewrite (iter_perm order) in Hin. apply elem_of_map_to_list in Hin.
    destruct (After now (Expiry e)) eqn:Hexp; simplify_eq.
    rewrite Hin. simpl. rewrite option_guard_False; [done|].
    unfold live. simpl. congruence.
  - destruct (cache cm !! k) as [e|] eqn:Hk; [|done]. simpl.
    rewrite option_guard_True; [done|].
    unfold live. simpl. destruct (After now (Expiry e)) eqn:Hexp; [|done].
    exfalso. apply Hnin, list_elem_of_omap. exists (k, e). simpl.
    rewrite Hexp. split; [|done].
    rewrite (iter_perm order). by apply elem_of_map_to_list.
Qed.

(** ** Histories *)

Lemma run_snoc ops op cm :
  exec (run (ops ++ [op])) cm = exec (step op) (exec (run ops) cm).
Proof.
  unfold run. rewrite exec_forEach_app. simpl. by rewrite exec_bind.
Qed.

Lemma step_Get_exec k now cm : exec (step (OpGet k now)) cm = cm.
Proof. simpl. by rewrite exec_bind, Get_exec. Qed.

Lemma lastSet_snoc ops op k :
  lastSet (ops ++ [op]) k =
    match op with
    | OpSet _ key data now =>
        if decide (key = k) then Some (data, now) else lastSet ops k
    | _ => lastSet ops k
    end.
Proof.
  induction ops as [|op0 ops IH]; simpl.
  - destruct op; [case_decide|..]; done.
  - rewrite IH. destruct op as [o key data now| |]; [|done..].
    case_decide; [done|]. done.
Qed.

(** ** Sequences of Set on distinct keys *)

Section sequences.
Local Open Scope nat_scope.
Implicit Types (l : list SetCall) (m : gmap string CacheEntry).

(** A strictly smaller submap misses a key of the larger one. *)
Lemma map_subseteq_missing m' m :
  m' ⊆ m → size m' < size m → ∃ k e, m !! k = Some e ∧ m' !! k = None.
Proof.
  intros Hsub Hsz.
  destruct (map_choose_or_empty (m ∖ m')) as [(k & e & Hk)|Hempty].
  - apply lookup_difference_Some in Hk. eauto.
  - exfalso. pose proof (map_difference_union m' m Hsub) as Hu.
    rewrite Hempty, (right_id ∅ (∪)) in Hu. subst m'. lia.
Qed.

(** One entry above the capacity: the check deletes the entry that expires
    first, when it is the only one with that expiry. *)
Lemma checkCacheSize_evict_one order cm k0 e0 :
  size (cache cm) = S MAX_CACHE_SIZE →
  cache cm !! k0 = Some e0 →
  (∀ k e, k ≠ k0 → cache cm !! k = Some e → (Expiry e0 < Expiry e)%Z) →
  cache (exec (checkCacheSize order) cm) = delete k0 (cache cm).
Proof.
  intros Hsz Hk0 Hmin.
  pose proof (checkCacheSize_trim order cm ltac:(lia)) as Htrim.
  pose proof (checkCacheSize_subseteq order cm) as Hsub.
  pose proof (checkCacheSize_earliest order cm) as Hearly.
  set (m' := cache (exec (checkCacheSize order) cm)) in *.
  assert (m' !! k0 = None) as Hgone.
  { destruct (m' !! k0) as [e|] eqn:He; [exfalso|done].
    destruct (map_subseteq_missing m' (cache cm)) as (k & e' & Hk & Hk');
      [done|lia|].
    assert (k ≠ k0) as Hne by congruence.
    pose proof (Hmin k e' Hne Hk).
    pose proof (Hearly k e' k0 e Hk Hk' He).
    pose proof (lookup_weaken _ _ _ _ He Hsub). simplify_eq. lia. }
  apply map_subseteq_size_eq.
  - apply map_subseteq_spec. intros k e He.
    assert (k ≠ k0) as Hne by congruence.
    rewrite lookup_delete_ne by done. by eapply lookup_weaken.
  - rewrite map_size_delete, Hk0, Hsz, Htrim. simpl. lia.
Qed.

Lemma run_opOf_snoc l c :
  exec (run (opOf <$> l ++ [c])) NewCacheManager
  = exec (Set_ (scOrder c) (scKey c) (scData c) (scTime c))
         (exec (run (opOf <$> l)) NewCacheManager).
Proof.
  rewrite fmap_app. change (opOf <$> [c]) with [opOf c]. by rewrite run_snoc.
Qed.

Lemma increasing_snoc l c :
  increasing (l ++ [c]) →
  increasing l ∧ ∀ a, a ∈ l → (scTime a < scTime c)%Z.
Proof.
  intros Hinc. split.
  - intros i j a b Hij Ha Hb. apply (Hinc i j); [done|..].
    + by apply lookup_app_l_Some.
    + by apply lookup_app_l_Some.
  - intros a (i & Ha)%list_elem_of_lookup_1.
    apply (Hinc i (length l)).
    + by eapply lookup_lt_Some.
    + by apply lookup_app_l_Some.
    + by rewrite lookup_app_r, Nat.sub_diag.
Qed.

Lemma stored_keys l : (stored <$> l).*1 = scKey <$> l.
Proof. by rewrite <-list_fmap_compose. Qed.

Lemma recent_NoDup l : NoDup (scKey <$> l) → NoDup (scKey <$> recent l).
Proof.
  intros Hnd. unfold recent. rewrite fmap_drop.
  eapply sublist_NoDup; [exact Hnd|apply sublist_drop].
Qed.
Lemma recent_snoc l c :
  recent (l ++ [c]) =
    (if decide (length l ≤ MAX_CACHE_SIZE) then l
     else drop (S (length l - (MAX_CACHE_SIZE + 1))) l) ++ [c].
Proof.
  unfold recent. rewrite length_app. change (length [c]) with 1.
  case_decide as Hlen.
  - replace (length l + 1 - (MAX_CACHE_SIZE + 1)) with 0 by lia. done.
  - replace (length l + 1 - (MAX_CACHE_SIZE + 1))
      with (S (length l - (MAX_CACHE_SIZE + 1))) by lia.
    apply drop_app_le. lia.
Qed.

Lemma size_stored l :
  NoDup (scKey <$> l) →
  size (list_to_map (stored <$> l) : gmap string CacheEntry) = length l.
Proof.
  intros Hnd. rewrite map_size_list_to_map, length_fmap; [done|].
  by rewrite stored_keys.
Qed.

(** After Sets on distinct keys at increasing instants the store holds the
    bindings of the last [MAX_CACHE_SIZE + 1] of them. *)
Lemma run_Sets l :
  NoDup (scKey <$> l) → increasing l →
  cache (exec (run (opOf <$> l)) NewCacheManager)
  = list_to_map (stored <$> recent l).
Proof.
  induction l as [|c l IH] using rev_ind; intros Hnd Hinc.
  - unfold recent. by rewrite drop_nil.
  - rewrite fmap_app in Hnd. apply NoDup_app in Hnd as (Hnd & Hfresh & _).
    apply increasing_snoc in Hinc as [Hinc Hlast].
    assert (scKey c ∉ scKey <$> l) as Hc.
    { intros Hin. apply (Hfresh _ Hin). simpl. left. }
    specialize (IH Hnd Hinc).
    pose proof (recent_NoDup l Hnd) as Hrnd.
    rewrite run_opOf_snoc, Set_cache, recent_snoc.
    set (cm := exec (run (opOf <$> l)) NewCacheManager) in *.
    case_decide as Hlen.
    + assert (recent l = l) as Hrec.
      { unfold recent.
        replace (length l - (MAX_CACHE_SIZE + 1)) with 0 by lia. done. }
      rewrite Hrec in IH.
      rewrite checkCacheSize_noop by (rewrite IH, size_stored; done).
      rewrite IH, fmap_app. symmetry. apply list_to_map_snoc.
      by rewrite stored_keys.
    + set (n := length l - (MAX_CACHE_SIZE + 1)).
      destruct (lookup_lt_is_Some_2 l n) as [c0 Hc0]; [lia|].
      assert (recent l = c0 :: drop (S n) l) as Hrec
        by (by apply drop_S).
      rewrite Hrec in IH, Hrnd. rewrite fmap_cons in IH.
      rewrite fmap_cons in Hrnd.
      apply NoDup_cons in Hrnd as [Hc0r Hrnd].
      assert ((list_to_map (stored <$> drop (S n) l)
               : gmap string CacheEntry) !! scKey c0 = None) as Hnone.
      { apply not_elem_of_list_to_map_1. by rewrite stored_keys. }
      rewrite (checkCacheSize_evict_one _ _ (scKey c0) (stored c0).2).
      * rewrite IH. change (stored c0 :: ?r)
          with ((scKey c0, (stored c0).2) :: r).
        rewrite list_to_map_cons, delete_insert_id by done.
        rewrite fmap_app. symmetry. apply list_to_map_snoc.
        rewrite stored_keys, fmap_drop. intros Hin. apply Hc.
        eapply elem_of_sublist; [exact Hin|apply sublist_drop].
      * rewrite IH, <-fmap_cons, <-Hrec, size_stored.
        -- unfold recent. rewrite length_drop. lia.
        -- by apply recent_NoDup.
      * rewrite IH. change (stored c0 :: ?r)
          with ((scKey c0, (stored c0).2) :: r).
        by rewrite list_to_map_cons, lookup_insert_eq.
      * intros k e Hne. rewrite IH.
        change (stored c0 :: ?r) with ((scKey c0, (stored c0).2) :: r).
        rewrite list_to_map_cons, lookup_insert_ne by done.
        intros Hk. apply elem_of_list_to_map in Hk;
          [|by rewrite stored_keys].
        apply list_elem_of_fmap in Hk as (b & Hb & Hin).
        apply list_elem_of_lookup_1 in Hin as (j & Hj).
        rewrite lookup_drop in Hj.
        pose proof (Hinc n (S n + j) c0 b ltac:(lia) Hc0 Hj) as Hlt.
        unfold stored in Hb. simplify_eq. simpl. unfold Add. lia.
Qed.
(** The workload [calls]. *)

Global Instance keyOf_inj : Inj (=) (=) keyOf.
Proof.
  intros i j Hij. unfold keyOf in Hij.
  by apply (inj (String.app "/3/movie/")), (inj pretty) in Hij.
Qed.

Lemma calls_length order n : length (calls order n) = n.
Proof. unfold calls. by rewrite length_fmap, length_seq. Qed.

Lemma calls_lookup order n i :
  i < n →
  calls order n !! i
  = Some (mkSetCall order (keyOf i) (bodyOf i) (Z.of_nat i)).
Proof.
  intros Hi. unfold calls. by rewrite list_lookup_fmap, lookup_seq_lt.
Qed.

Lemma calls_NoDup order n : NoDup (scKey <$> calls order n).
Proof.
  unfold calls. rewrite <-list_fmap_compose.
  apply (NoDup_fmap_2 keyOf), NoDup_seq.
Qed.

Lemma calls_increasing order n : increasing (calls order n).
Proof.
  intros i j a b Hij Ha Hb.
  assert (j < n) by (rewrite <-(calls_length order n); by eapply lookup_lt_Some).
  rewrite calls_lookup in Ha, Hb by lia. simplify_eq. simpl. lia.
Qed.

(** Beyond the capacity the store keeps the last [MAX_CACHE_SIZE + 1]
    bindings of the workload: the first [d] are gone, binding [d] is not. *)
Lemma fill_cache order d :
  cache (exec (run (fill order (MAX_CACHE_SIZE + S d))) NewCacheManager)
  = list_to_map (stored <$> drop d (calls order (MAX_CACHE_SIZE + S d))).
Proof.
  unfold fill. rewrite run_Sets by (apply calls_NoDup || apply calls_increasing).
  unfold recent. rewrite calls_length. do 3 f_equal. lia.
Qed.
Lemma fill_lookup order d i :
  cache (exec (run (fill order (MAX_CACHE_SIZE + S d))) NewCacheManager)
    !! keyOf i
  = if decide (d ≤ i < MAX_CACHE_SIZE + S d)
    then Some {| Data := bodyOf i;
                 Expiry := Add (Z.of_nat i) CACHE_DURATION |}
    else None.
Proof.
  rewrite fill_cache. case_decide as Hi.
  - apply elem_of_list_to_map.
    + rewrite stored_keys, fmap_drop.
      eapply sublist_NoDup; [apply calls_NoDup|apply sublist_drop].
    + apply list_elem_of_fmap.
      exists (mkSetCall order (keyOf i) (bodyOf i) (Z.of_nat i)).
      split; [done|]. apply (list_elem_of_lookup_2 _ (i - d)).
      rewrite lookup_drop. replace (d + (i - d)) with i by lia.
      apply calls_lookup. lia.
  - apply not_elem_of_list_to_map_1. rewrite stored_keys.
    intros (c & Hc & Hin)%list_elem_of_fmap.
    apply list_elem_of_lookup_1 in Hin as (j & Hj).
    rewrite lookup_drop in Hj.
    assert (d + j < MAX_CACHE_SIZE + S d) as Hlt.
    { rewrite <-(calls_length order (MAX_CACHE_SIZE + S d)).
      by eapply lookup_lt_Some. }
    rewrite calls_lookup in Hj by done. simplify_eq. simpl in Hc.
    apply (inj keyOf) in Hc. lia.
Qed.
End sequences.

(** * The claims *)

(** C2. [Get(k)] after [Set(k, p)] returns [(p, true)] as long as the
    current time is not after the stored expiry, that is, at most
    [CACHE_DURATION] after the insertion; once the time has advanced past the
    expiry it returns [(nil, false)]. *)
Theorem Set_then_Get order cm k p t now :
  let cm' := exec (Set_ order k p t) cm in
  (now ≤ t + CACHE_DURATION → eval (Get k now) cm' = (p, true)) ∧
  (t + CACHE_DURATION < now → eval (Get k now) cm' = (None, false)).
Proof.
  intros cm'. subst cm'. rewrite Get_eval, Set_lookup_eq. simpl.
  unfold After, Add. split; intros Hnow.
  - by apply Z.ltb_ge in Hnow as ->.
  - by apply Z.ltb_lt in Hnow as ->.
Qed.

Lemma Set_then_Get_witness :
  eval (Get (keyOf 7) 600000000005)
       (exec (Set_ reverseOrder (keyOf 7) (bodyOf 7) 5) NewCacheManager)
  = (bodyOf 7, true) ∧
  eval (Get (keyOf 7) 600000000006)
       (exec (Set_ reverseOrder (keyOf 7) (bodyOf 7) 5) NewCacheManager)
  = (None, false).
Proof.
  split.
  - apply (Set_then_Get reverseOrder NewCacheManager (keyOf 7) (bodyOf 7) 5
             600000000005).
    vm_compute. discriminate.
  - apply (Set_then_Get reverseOrder NewCacheManager (keyOf 7) (bodyOf 7) 5
             600000000006).
    reflexivity.
Defined.

(** C3. Capacity enforcement at the top of [Set]: with at most
    [MAX_CACHE_SIZE] entries it removes nothing; otherwise it only removes
    entries, exactly [size - MAX_CACHE_SIZE] of them, leaving exactly
    [MAX_CACHE_SIZE], and every removed entry expires no later than every
    entry that is kept, whatever the iteration order of the map. *)
Theorem checkCacheSize_spec order cm :
  let cm' := exec (checkCacheSize order) cm in
  ((size (cache cm) ≤ MAX_CACHE_SIZE)%nat → cm' = cm) ∧
  ((MAX_CACHE_SIZE < size (cache cm))%nat →
     cache cm' ⊆ cache cm ∧
     (size (cache cm) - size (cache cm')
      = size (cache cm) - MAX_CACHE_SIZE)%nat ∧
     size (cache cm') = MAX_CACHE_SIZE ∧
     ∀ k e k' e',
       cache cm !! k = Some e → cache cm' !! k = None →
       cache cm' !! k' = Some e' → Expiry e ≤ Expiry e').
Proof.
  intros cm'. subst cm'. split.
  - apply checkCacheSize_noop.
  - intros Hlt. pose proof (checkCacheSize_trim order cm Hlt) as Hsz.
    split; [apply checkCacheSize_subseteq|].
    split; [by rewrite Hsz|]. split; [done|].
    apply checkCacheSize_earliest.
Qed.

Lemma checkCacheSize_spec_witness :
  exec (checkCacheSize reverseOrder) (exec (run (fill reverseOrder 3))
                                          NewCacheManager)
  = exec (run (fill reverseOrder 3)) NewCacheManager ∧
  size (cache (exec (checkCacheSize reverseOrder)
                 (exec (run (fill reverseOrder 1001)) NewCacheManager)))
  = MAX_CACHE_SIZE.
Proof.
  split.
  - refine (proj1 (checkCacheSize_spec reverseOrder
             (exec (run (fill reverseOrder 3)) NewCacheManager)) _).
    apply Nat.leb_le. vm_compute. reflexivity.
  - refine (proj1 (proj2 (proj2 (proj2 (checkCacheSize_spec reverseOrder
             (exec (run (fill reverseOrder 1001)) NewCacheManager)) _)))).
    apply Nat.ltb_lt. vm_compute. reflexivity.
Defined.

(** C5. In every history of [Get], [Set] and sweep steps (each [Set]
    running capacity enforcement first), every entry of the store carries the
    payload of the last [Set] of its key and expires exactly
    [CACHE_DURATION] after the instant of that [Set]; no other step moves
    the expiry. *)
Theorem fixed_ttl ops k e :
  cache (exec (run ops) NewCacheManager) !! k = Some e →
  ∃ p t, lastSet ops k = Some (p, t) ∧
         e = {| Data := p; Expiry := t + CACHE_DURATION |}.
Proof.
  revert k e. induction ops as [|op ops IH] using rev_ind; intros k e.
  - change (exec (run []) NewCacheManager) with NewCacheManager.
    simpl. by rewrite lookup_empty.
  - rewrite run_snoc, lastSet_snoc.
    destruct op as [order key data now|key now|order now].
    + simpl. rewrite Set_cache. case_decide as Hk.
      * subst key. rewrite lookup_insert_eq. intros [= <-]. by eexists _, _.
      * rewrite lookup_insert_ne by done. intros He. apply IH.
        eapply lookup_weaken; [exact He|apply checkCacheSize_subseteq].
    + rewrite step_Get_exec. apply IH.
    + simpl. rewrite cleanExpiredCache_cache.
      intros [He _]%map_lookup_filter_Some. by apply IH.
Qed.

Lemma fixed_ttl_witness :
  ∃ p t,
    lastSet [OpSet reverseOrder (keyOf 1) (bodyOf 1) 10;
             OpSet canonicalOrder (keyOf 2) (bodyOf 2) 20;
             OpGet (keyOf 1) 600000000000;
             OpSweep reverseOrder 600000000015;
             OpSet canonicalOrder (keyOf 2) (bodyOf 3) 600000000030;
             OpGet (keyOf 2) 600000000040] (keyOf 2) = Some (p, t) ∧
    {| Data := bodyOf 3; Expiry := 1200000000030 |}
    = {| Data := p; Expiry := t + CACHE_DURATION |}.
Proof.
  apply (fixed_ttl
           [OpSet reverseOrder (keyOf 1) (bodyOf 1) 10;
            OpSet canonicalOrder (keyOf 2) (bodyOf 2) 20;
            OpGet (keyOf 1) 600000000000;
            OpSweep reverseOrder 600000000015;
            OpSet canonicalOrder (keyOf 2) (bodyOf 3) 600000000030;
            OpGet (keyOf 2) 600000000040]
           (keyOf 2) {| Data := bodyOf 3; Expiry := 1200000000030 |}).
  vm_compute. reflexivity.
Defined.

(** C6. [Set(k, p1)], [Set(k, p2)], [Get(k)]: when the first [Set] leaves
    at most [MAX_CACHE_SIZE] entries (no capacity pressure) and the [Get]
    comes no later than the expiry of the second [Set], the [Get] returns
    [(p2, true)] and the second [Set] leaves the size of the store
    unchanged. *)
Theorem Set_overwrite order1 order2 cm k p1 p2 t1 t2 now :
  let cm1 := exec (Set_ order1 k p1 t1) cm in
  let cm2 := exec (Set_ order2 k p2 t2) cm1 in
  (size (cache cm1) ≤ MAX_CACHE_SIZE)%nat →
  now ≤ t2 + CACHE_DURATION →
  eval (Get k now) cm2 = (p2, true) ∧ size (cache cm2) = size (cache cm1).
Proof.
  intros cm1 cm2 Hsz Hnow. split.
  - subst cm2. rewrite Get_eval, Set_lookup_eq. cbn [Expiry Data].
    unfold After, Add. by apply Z.ltb_ge in Hnow as ->.
  - subst cm2. rewrite Set_cache, checkCacheSize_noop by done.
    rewrite map_size_insert. subst cm1. by rewrite Set_lookup_eq.
Qed.

Lemma Set_overwrite_witness :
  eval (Get (keyOf 1) 40)
    (exec (Set_ canonicalOrder (keyOf 1) (bodyOf 5) 30)
       (exec (Set_ reverseOrder (keyOf 1) (bodyOf 4) 20)
          (exec (run (fill reverseOrder 3)) NewCacheManager)))
  = (bodyOf 5, true) ∧
  size (cache
    (exec (Set_ canonicalOrder (keyOf 1) (bodyOf 5) 30)
       (exec (Set_ reverseOrder (keyOf 1) (bodyOf 4) 20)
          (exec (run (fill reverseOrder 3)) NewCacheManager))))
  = size (cache
       (exec (Set_ reverseOrder (keyOf 1) (bodyOf 4) 20)
          (exec (run (fill reverseOrder 3)) NewCacheManager))).
Proof.
  apply (Set_overwrite reverseOrder canonicalOrder
           (exec (run (fill reverseOrder 3)) NewCacheManager)
           (keyOf 1) (bodyOf 4) (bodyOf 5) 20 30 40).
  - apply Nat.leb_le. vm_compute. reflexivity.
  - vm_compute. discriminate.
Defined.

(** C7. One sweep at [now] removes exactly the entries whose expiry is
    before [now]: the store that it leaves is the store restricted to the
    live entries, each with its payload and expiry unchanged. *)
Theorem cleanExpiredCache_spec order now cm :
  let cm' := exec (cleanExpiredCache order now) cm in
  cache cm' = filter (live now) (cache cm) ∧
  ∀ k, cache cm' !! k =
         match cache cm !! k with
         | Some e => if Expiry e <? now then None else Some e
         | None => None
         end.
Proof.
  intros cm'. subst cm'. rewrite cleanExpiredCache_cache. split; [done|].
  intros k. rewrite map_lookup_filter.
  destruct (cache cm !! k) as [e|]; [|done]. simpl.
  destruct (Expiry e <? now) eqn:Hexp.
  - rewrite option_guard_False; [done|]. unfold live, After. simpl. congruence.
  - by rewrite option_guard_True.
Qed.

Example cleanExpiredCache_example :
  map_to_list (cache (exec (cleanExpiredCache reverseOrder 600000000002)
                        (exec (run (fill canonicalOrder 5)) NewCacheManager)))
  = map_to_list (cache (exec (run [OpSet canonicalOrder (keyOf 2) (bodyOf 2) 2;
                                   OpSet canonicalOrder (keyOf 3) (bodyOf 3) 3;
                                   OpSet canonicalOrder (keyOf 4) (bodyOf 4) 4])
                          NewCacheManager)).
Proof. vm_compute. reflexivity. Qed.

(** C8. [Get] leaves the store as it found it; an entry that is present
    but expired is reported as a miss and stays in the store. *)
Theorem Get_frame k now cm :
  exec (Get k now) cm = cm ∧
  ∀ e, cache cm !! k = Some e → Expiry e < now →
       eval (Get k now) cm = (None, false) ∧
       cache (exec (Get k now) cm) !! k = Some e.
Proof.
  split; [apply Get_exec|]. intros e He Hexp.
  rewrite Get_exec, Get_eval, He. split; [|done].
  unfold After. by apply Z.ltb_lt in Hexp as ->.
Qed.

Lemma Get_frame_witness :
  eval (Get (keyOf 0) 600000000001)
       (exec (run (fill reverseOrder 2)) NewCacheManager) = (None, false) ∧
  cache (exec (Get (keyOf 0) 600000000001)
           (exec (run (fill reverseOrder 2)) NewCacheManager)) !! keyOf 0
  = Some {| Data := bodyOf 0; Expiry := 600000000000 |}.
Proof.
  apply (Get_frame (keyOf 0) 600000000001
           (exec (run (fill reverseOrder 2)) NewCacheManager)).
  - vm_compute. reflexivity.
  - reflexivity.
Defined.

(** C10. From a new cache manager, after any history of [Get], [Set] and
    sweep steps the store holds at most [MAX_CACHE_SIZE + 1] entries:
    capacity enforcement runs before the insert and trims a store above
    [MAX_CACHE_SIZE] back to exactly [MAX_CACHE_SIZE], the insert adds at
    most one entry, and [Get] and the sweep never add any. *)
Theorem size_le_MAX_CACHE_SIZE_plus_1 ops :
  let cm := exec (run ops) NewCacheManager in
  (size (cache cm) ≤ MAX_CACHE_SIZE + 1)%nat ∧
  (∀ order, (MAX_CACHE_SIZE < size (cache cm))%nat →
     size (cache (exec (checkCacheSize order) cm)) = MAX_CACHE_SIZE) ∧
  (∀ order k data now,
     (size (cache (exec (Set_ order k data now) cm))
      ≤ S (size (cache (exec (checkCacheSize order) cm))))%nat) ∧
  (∀ k now, size (cache (exec (Get k now) cm)) = size (cache cm)) ∧
  (∀ order now,
     (size (cache (exec (cleanExpiredCache order now) cm))
      ≤ size (cache cm))%nat).
Proof.
  intros cm. split; [|split; [|split; [|split]]].
  - subst cm. induction ops as [|op ops IH] using rev_ind.
    + change (exec (run []) NewCacheManager) with NewCacheManager.
      simpl. rewrite map_size_empty. lia.
    + rewrite run_snoc. destruct op as [order key data now|key now|order now].
      * unfold step.
        pose proof (Set_size order key data now
                      (exec (run ops) NewCacheManager)).
        pose proof (checkCacheSize_size order
                      (exec (run ops) NewCacheManager)). lia.
      * by rewrite step_Get_exec.
      * unfold step. rewrite cleanExpiredCache_cache.
        etransitivity; [|exact IH].
        apply map_subseteq_size, map_filter_subseteq.
  - intros order. apply checkCacheSize_trim.
  - intros. apply Set_size.
  - intros. by rewrite Get_exec.
  - intros. rewrite cleanExpiredCache_cache.
    apply map_subseteq_size, map_filter_subseteq.
Qed.

Lemma size_le_MAX_CACHE_SIZE_plus_1_witness :
  size (cache (exec (checkCacheSize reverseOrder)
                 (exec (run (fill canonicalOrder 1001)) NewCacheManager)))
  = MAX_CACHE_SIZE.
Proof.
  refine (proj1 (proj2 (size_le_MAX_CACHE_SIZE_plus_1
                          (fill canonicalOrder 1001))) reverseOrder _).
  apply Nat.ltb_lt. vm_compute. reflexivity.
Defined.

(** C1. The capacity bound after [Set] fails on the code: once the
    workload has stored more than [MAX_CACHE_SIZE] distinct keys, that is
    from the 1001st [Set] on, the store holds [MAX_CACHE_SIZE + 1] entries
    when [Set] returns, whatever the iteration orders, because
    [checkCacheSize] runs before the insert. *)
Theorem Set_exceeds_MAX_CACHE_SIZE order d :
  let cm := exec (run (fill order (MAX_CACHE_SIZE + S d))) NewCacheManager in
  size (cache cm) = S MAX_CACHE_SIZE ∧
  ¬ (size (cache cm) ≤ MAX_CACHE_SIZE)%nat.
Proof.
  intros cm.
  assert (size (cache cm) = S MAX_CACHE_SIZE) as Hsz.
  { subst cm. rewrite fill_cache, size_stored.
    - rewrite length_drop, calls_length. lia.
    - rewrite fmap_drop.
      eapply sublist_NoDup; [apply calls_NoDup|apply sublist_drop]. }
  split; [done|]. rewrite Hsz. lia.
Qed.

Example Set_1001_times :
  size (cache (exec (run (fill reverseOrder 1001)) NewCacheManager))
  = 1001%nat.
Proof. vm_compute. reflexivity. Qed.

(** C4. The eviction order fails on the code: after [MAX_CACHE_SIZE + d]
    [Set] calls on distinct keys at strictly increasing instants, none of
    them expired, with [d = S d'], only the first [d'] entries are gone: the
    entry of call [d'], which is among the [d] earliest, is still in the
    store and [Get] still returns it. *)
Theorem earliest_entry_survives order d' :
  let cm := exec (run (fill order (MAX_CACHE_SIZE + S d'))) NewCacheManager in
  cache cm !! keyOf d'
  = Some {| Data := bodyOf d'; Expiry := Z.of_nat d' + CACHE_DURATION |} ∧
  eval (Get (keyOf d') (Z.of_nat (MAX_CACHE_SIZE + d'))) cm
  = (bodyOf d', true) ∧
  ∀ i : nat, (i < d')%nat → cache cm !! keyOf i = None.
Proof.
  intros cm.
  assert (cache cm !! keyOf d'
          = Some {| Data := bodyOf d';
                    Expiry := Z.of_nat d' + CACHE_DURATION |}) as Hd.
  { subst cm. rewrite fill_lookup. rewrite decide_True by lia. done. }
  split; [done|]. split.
  - rewrite Get_eval, Hd. cbn [Expiry Data]. unfold After.
    assert (Z.of_nat MAX_CACHE_SIZE = 1000) as Hmax by reflexivity.
    assert (CACHE_DURATION = 600000000000) as Hdur by reflexivity.
    rewrite Nat2Z.inj_add, Hmax, Hdur.
    destruct (Z.ltb_spec (Z.of_nat d' + 600000000000) (1000 + Z.of_nat d'));
      [lia|done].
  - intros i Hi. subst cm. rewrite fill_lookup.
    rewrite decide_False by lia. done.
Qed.

Example Get_first_key_after_1001_Sets :
  eval (Get (keyOf 0) 1000)
       (exec (run (fill reverseOrder 1001)) NewCacheManager)
  = (bodyOf 0, true).
Proof. vm_compute. reflexivity. Qed.


(** * Further properties of the cache manager *)

Lemma StronglySorted_lookup {A} (R : A → A → Prop) (l : list A) :
  (∀ (a b : nat) x y, (a < b)%nat → l !! a = Some x → l !! b = Some y →
     R x y) →
  StronglySorted R l.
Proof.
  induction l as [|x l IH]; intros Hl; constructor.
  - apply IH. intros a b y z Hab Hy Hz. by apply (Hl (S a) (S b)); [lia|..].
  - apply Forall_forall. intros y (b & Hb)%list_elem_of_lookup_1.
    by apply (Hl 0%nat (S b)); [lia|..].
Qed.

(** X1. The two nested loops of [checkCacheSize] sort the slice: the
    result is a rearrangement of the input in ascending order of expiry. *)
Theorem sortByExpiry_sorts es :
  sortByExpiry es ≡ₚ es ∧ StronglySorted expiryLe (sortByExpiry es).
Proof.
  split; [apply sortByExpiry_perm|].
  apply StronglySorted_lookup. intros a b x y Hab Hx Hy.
  by eapply sortByExpiry_sorted.
Qed.



(** X3. Without capacity pressure [Set(k, ...)] touches the key [k]
    only: what [Get] returns for any other key is unchanged. *)
Theorem Set_frame order k data now cm k' t :
  (size (cache cm) ≤ MAX_CACHE_SIZE)%nat → k' ≠ k →
  eval (Get k' t) (exec (Set_ order k data now) cm) = eval (Get k' t) cm.
Proof.
  intros Hsz Hne.
  rewrite !Get_eval, Set_cache, checkCacheSize_noop by done.
  by rewrite lookup_insert_ne.
Qed.

Lemma Set_frame_witness :
  eval (Get (keyOf 0) 7)
       (exec (Set_ reverseOrder (keyOf 5) (bodyOf 5) 6)
          (exec (run (fill canonicalOrder 2)) NewCacheManager))
  = eval (Get (keyOf 0) 7) (exec (run (fill canonicalOrder 2)) NewCacheManager).
Proof.
  apply (Set_frame reverseOrder (keyOf 5) (bodyOf 5) 6
           (exec (run (fill canonicalOrder 2)) NewCacheManager) (keyOf 0) 7).
  - apply Nat.leb_le. vm_compute. reflexivity.
  - vm_compute. discriminate.
Defined.

(** X4. [Set] on a key that is already in the store never makes the store
    larger, with or without capacity pressure. *)
Theorem Set_present_size order k data now cm :
  is_Some (cache cm !! k) →
  (size (cache (exec (Set_ order k data now) cm)) ≤ size (cache cm))%nat.
Proof.
  intros Hk. destruct (decide (size (cache cm) ≤ MAX_CACHE_SIZE)%nat).
  - rewrite Set_cache, checkCacheSize_noop by done.
    rewrite map_size_insert. destruct Hk as [e ->]. done.
  - pose proof (Set_size order k data now cm).
    pose proof (checkCacheSize_size order cm). lia.
Qed.

Lemma Set_present_size_witness :
  (size (cache (exec (Set_ reverseOrder (keyOf 1) (bodyOf 9) 50%Z)
                  (exec (run (fill canonicalOrder 3)) NewCacheManager)))
   ≤ size (cache (exec (run (fill canonicalOrder 3)) NewCacheManager)))%nat.
Proof.
  apply (Set_present_size reverseOrder (keyOf 1) (bodyOf 9) 50
           (exec (run (fill canonicalOrder 3)) NewCacheManager)).
  vm_compute. eauto.
Defined.

(** X5. The sweep is invisible to readers: a [Get] at or after the instant
    of the sweep returns what it would return without the sweep. *)
Theorem cleanExpiredCache_transparent order now cm k t :
  now ≤ t →
  eval (Get k t) (exec (cleanExpiredCache order now) cm)
  = eval (Get k t) cm.
Proof.
  intros Ht. rewrite !Get_eval, cleanExpiredCache_cache, map_lookup_filter.
  destruct (cache cm !! k) as [e|]; [|done]. simpl.
  destruct (decide (live now (k, e))) as [Hl|Hl].
  - by rewrite option_guard_True.
  - rewrite option_guard_False by done. simpl.
    unfold live, After in *. simpl in Hl.
    destruct (Z.ltb_spec (Expiry e) now); [|done].
    destruct (Z.ltb_spec (Expiry e) t); [done|lia].
Qed.

Lemma cleanExpiredCache_transparent_witness :
  eval (Get (keyOf 0) 600000000009)
       (exec (cleanExpiredCache reverseOrder 600000000001)
          (exec (run (fill canonicalOrder 3)) NewCacheManager))
  = eval (Get (keyOf 0) 600000000009)
         (exec (run (fill canonicalOrder 3)) NewCacheManager).
Proof.
  apply (cleanExpiredCache_transparent reverseOrder 600000000001
           (exec (run (fill canonicalOrder 3)) NewCacheManager)
           (keyOf 0) 600000000009).
  vm_compute. discriminate.
Defined.

Lemma live_filter_filter t1 t2 (m : gmap string CacheEntry) :
  filter (live t2) (filter (live t1) m) = filter (live (t1 `max` t2)) m.
Proof.
  apply map_eq. intros k. apply option_eq. intros e.
  rewrite !map_lookup_filter_Some. unfold live, After. simpl.
  rewrite !Z.ltb_ge. split.
  - intros [[? ?] ?]. split; [done|lia].
  - intros [? ?]. repeat split; [done|lia..].
Qed.

Lemma startCleanup_cache ticks cm :
  cache (exec (startCleanup ticks) cm)
  = foldl (λ m tick, filter (live tick.2) m) (cache cm) ticks.
Proof.
  unfold startCleanup. revert cm.
  induction ticks as [|tick ticks IH]; intros cm; simpl; [done|].
  by rewrite exec_bind, IH, cleanExpiredCache_cache.
Qed.

Lemma sweeps_before (ticks : list (IterOrder * Time)) now
    (m : gmap string CacheEntry) :
  (∀ tick, tick ∈ ticks → tick.2 ≤ now) →
  filter (live now) (foldl (λ m tick, filter (live tick.2) m) m ticks)
  = filter (live now) m.
Proof.
  revert m. induction ticks as [|tick ticks IH]; intros m Hle; simpl; [done|].
  rewrite IH by (intros; apply Hle; by right).
  rewrite live_filter_filter.
  by rewrite Z.max_r by (apply Hle; left).
Qed.

Lemma sweeps_after (ticks : list (IterOrder * Time)) now
    (m : gmap string CacheEntry) :
  (∀ tick, tick ∈ ticks → tick.2 ≤ now) →
  foldl (λ m tick, filter (live tick.2) m) (filter (live now) m) ticks
  = filter (live now) m.
Proof.
  revert m. induction ticks as [|tick ticks IH]; intros m Hle; simpl; [done|].
  rewrite live_filter_filter, Z.max_l by (apply Hle; left).
  apply IH. intros; apply Hle; by right.
Qed.

(** X6. The cleanup loop adds nothing to one sweep: after any number of
    ticks the store is the one that a single sweep at the latest of their
    instants leaves. *)
Theorem startCleanup_latest ticks now cm :
  (∀ tick, tick ∈ ticks → tick.2 ≤ now) →
  (∃ tick, tick ∈ ticks ∧ tick.2 = now) →
  cache (exec (startCleanup ticks) cm) = filter (live now) (cache cm).
Proof.
  intros Hle (tick & Hin & <-).
  apply list_elem_of_split in Hin as (l1 & l2 & ->).
  rewrite startCleanup_cache, foldl_app. cbn [foldl].
  rewrite sweeps_after, sweeps_before; [done|..].
  - intros tk Htk. apply Hle, elem_of_app. by left.
  - intros tk Htk. apply Hle, elem_of_app. right. by right.
Qed.

Lemma startCleanup_latest_witness :
  cache (exec (startCleanup [(canonicalOrder, 600000000001);
                             (reverseOrder, 600000000003);
                             (canonicalOrder, 600000000002)])
           (exec (run (fill canonicalOrder 5)) NewCacheManager))
  = filter (live 600000000003)
      (cache (exec (run (fill canonicalOrder 5)) NewCacheManager)).
Proof.
  apply (startCleanup_latest
           [(canonicalOrder, 600000000001); (reverseOrder, 600000000003);
            (canonicalOrder, 600000000002)] 600000000003).
  - intros tick Hin. repeat (apply elem_of_cons in Hin as [->|Hin]);
      [simpl; lia..|by apply elem_of_nil in Hin].
  - exists (reverseOrder, 600000000003). split; [|done]. right. left.
Defined.

(** ** Histories *)

(** Where an entry of the store comes from. *)
Lemma lookup_run_lastSet ops k e :
  cache (exec (run ops) NewCacheManager) !! k = Some e →
  ∃ t, lastSet ops k = Some (Data e, t) ∧ Expiry e = t + CACHE_DURATION.
Proof.
  revert e. induction ops as [|op ops IH] using rev_ind; intros e.
  - change (exec (run []) NewCacheManager) with NewCacheManager.
    simpl. by rewrite lookup_empty.
  - rewrite run_snoc, lastSet_snoc.
    destruct op as [order key data now|key now|order now]; unfold step.
    + rewrite Set_cache. destruct (decide (key = k)) as [->|Hne].
      * rewrite lookup_insert_eq. intros [= <-]. by eexists.
      * rewrite lookup_insert_ne by done. intros He. apply IH.
        eapply lookup_weaken; [exact He|apply checkCacheSize_subseteq].
    + rewrite exec_bind, Get_exec. apply IH.
    + rewrite cleanExpiredCache_cache.
      intros [He _]%map_lookup_filter_Some. by apply IH.
Qed.

(** X7. A hit is never stale: when [Get(k)] hits after any history of
    [Set], [Get] and sweep steps, it returns the payload of the last
    [Set(k, ...)] of the history, and that [Set] happened at most
    [CACHE_DURATION] before the [Get]. *)
Theorem Get_hit_fresh ops k now p :
  eval (Get k now) (exec (run ops) NewCacheManager) = (p, true) →
  ∃ t, lastSet ops k = Some (p, t) ∧ now ≤ t + CACHE_DURATION.
Proof.
  rewrite Get_eval.
  destruct (cache (exec (run ops) NewCacheManager) !! k) as [e|] eqn:He;
    [|done].
  apply lookup_run_lastSet in He as (t & Hlast & Hexp).
  unfold After. destruct (Z.ltb_spec (Expiry e) now); [done|].
  intros [= <-]. exists t. split; [done|lia].
Qed.

Lemma Get_hit_fresh_witness :
  ∃ t, lastSet (fill reverseOrder 3) (keyOf 1) = Some (bodyOf 1, t) ∧
       42 ≤ t + CACHE_DURATION.
Proof.
  apply (Get_hit_fresh (fill reverseOrder 3) (keyOf 1) 42 (bodyOf 1)).
  vm_compute. reflexivity.
Defined.

(** X8. A key that no [Set] of the history stored is a miss, at any
    instant; in particular every [Get] on a new cache manager misses. *)
Theorem Get_never_Set ops k now :
  lastSet ops k = None →
  eval (Get k now) (exec (run ops) NewCacheManager) = (None, false).
Proof.
  intros Hnone. rewrite Get_eval.
  destruct (cache (exec (run ops) NewCacheManager) !! k) as [e|] eqn:He;
    [|done].
  apply lookup_run_lastSet in He as (t & Hlast & _). congruence.
Qed.

Lemma Get_never_Set_witness :
  eval (Get (keyOf 9) 5) (exec (run (fill reverseOrder 3)) NewCacheManager)
  = (None, false).
Proof.
  apply (Get_never_Set (fill reverseOrder 3) (keyOf 9) 5).
  vm_compute. reflexivity.
Defined.

(** X9. A sweep that comes more than [CACHE_DURATION] after the last
    [Set] of every key empties the store. *)
Theorem cleanExpiredCache_idle order ops now :
  (∀ k p t, lastSet ops k = Some (p, t) → t + CACHE_DURATION < now) →
  cache (exec (cleanExpiredCache order now) (exec (run ops) NewCacheManager))
  = ∅.
Proof.
  intros Hidle. rewrite cleanExpiredCache_cache.
  apply map_empty. intros k. apply map_lookup_filter_None.
  destruct (cache (exec (run ops) NewCacheManager) !! k) as [e|] eqn:He;
    [right|by left].
  intros e' [= <-]. unfold live, After. simpl.
  apply lookup_run_lastSet in He as (t & Hlast & Hexp).
  pose proof (Hidle k _ t Hlast).
  destruct (Z.ltb_spec (Expiry e) now); [done|lia].
Qed.

Lemma cleanExpiredCache_idle_witness :
  cache (exec (cleanExpiredCache reverseOrder 600000000001)
           (exec (run [OpSet canonicalOrder (keyOf 0) (bodyOf 0) 0])
              NewCacheManager))
  = ∅.
Proof.
  apply (cleanExpiredCache_idle reverseOrder
           [OpSet canonicalOrder (keyOf 0) (bodyOf 0) 0] 600000000001).
  intros k p t. simpl. case_decide; [|done]. intros [= <- <-]. reflexivity.
Defined.


(** * The handler *)

Section handler.
Implicit Types (env : Env) (order : IterOrder) (r : Request)
  (cm : CacheManager).

(** The handler after the preflight test, by the outcome of [Get]. *)
Lemma handler_miss env order tGet tSet r cm :
  Method r ≠ MethodOptions → miss r tGet cm →
  handler env order tGet tSet r cm =
    match NewRequestErr env (Method r) (TMDB_BASE_URL +:+ RequestURI r) with
    | Some err =>
        (jsonResponse StatusInternalServerError (EncodeError env err), [], cm)
    | None =>
        match Do env (upstreamRequest r) with
        | inl err =>
            (jsonResponse StatusBadGateway (EncodeError env err),
             [upstreamRequest r], cm)
        | inr resp =>
            match ReadAll resp with
            | inl err =>
                (jsonResponse StatusInternalServerError (EncodeError env err),
                 [upstreamRequest r], cm)
            | inr body =>
                (jsonResponse (StatusCode resp) body, [upstreamRequest r],
                 if decide (StatusCode resp = StatusOK)
                 then exec (Set_ order (RequestURI r) (Some body) tSet) cm
                 else cm)
            end
        end
    end.
Proof.
  intros Hm Hmiss. unfold miss in Hmiss. unfold handler.
  rewrite decide_False by done.
  unfold mbind, M_bind, bind at 1.
  pose proof (Get_exec (RequestURI r) tGet cm) as Hexec.
  unfold exec, eval in Hexec, Hmiss.
  destruct (Get (RequestURI r) tGet cm) as [[data found] cm'].
  simpl in Hexec, Hmiss. subst cm' found.
  fold (upstreamRequest r).
  destruct (NewRequestErr _ _ _) as [err|]; [done|].
  destruct (Do env (upstreamRequest r)) as [err|resp]; [done|].
  destruct (ReadAll resp) as [err|body]; [done|].
  unfold bind. case_decide.
  - unfold exec. by destruct (Set_ _ _ _ _ cm) as [[] cm2].
  - done.
Qed.

Lemma handler_OPTIONS_eq env order tGet tSet r cm :
  Method r = MethodOptions →
  handler env order tGet tSet r cm
  = ({| Header := corsHeaders; Sent := Some (StatusOK, corsHeaders);
        Written := [] |}, [], cm).
Proof. intros Hm. unfold handler. by rewrite decide_True. Qed.

Lemma handler_found env order tGet tSet r cm e :
  Method r ≠ MethodOptions →
  cache cm !! RequestURI r = Some e → tGet ≤ Expiry e →
  handler env order tGet tSet r cm
  = (jsonResponse StatusOK (bytesOf (Data e)), [], cm).
Proof.
  intros Hm He Hfresh. unfold handler. rewrite decide_False by done.
  unfold mbind, M_bind, bind at 1.
  pose proof (Get_exec (RequestURI r) tGet cm) as Hexec.
  pose proof (Get_eval (RequestURI r) tGet cm) as Heval.
  rewrite He in Heval. unfold After in Heval.
  apply Z.ltb_ge in Hfresh. rewrite Hfresh in Heval.
  unfold exec, eval in Hexec, Heval.
  destruct (Get (RequestURI r) tGet cm) as [[data found] cm'].
  simpl in Hexec, Heval. by simplify_eq.
Qed.
(** X10. A preflight request (method OPTIONS) is answered with status
    200, the three CORS headers and no body, without a look at the cache
    and without a request upstream. *)
Theorem handler_OPTIONS env order tGet tSet r cm :
  Method r = MethodOptions →
  handler env order tGet tSet r cm
  = ({| Header := corsHeaders; Sent := Some (StatusOK, corsHeaders);
        Written := [] |}, [], cm).
Proof.
  intros Hm. unfold handler. rewrite decide_True by done. reflexivity.
Qed.

Lemma handler_OPTIONS_witness :
  handler (mkEnv (λ _ _, None) (λ _, inl "unreachable") (λ _, []))
          reverseOrder 1 2 (mkRequest "OPTIONS" "/3/movie/1" "" None)
          NewCacheManager
  = ({| Header := corsHeaders; Sent := Some (StatusOK, corsHeaders);
        Written := [] |}, [], NewCacheManager).
Proof.
  apply (handler_OPTIONS
           (mkEnv (λ _ _, None) (λ _, inl "unreachable") (λ _, []))
           reverseOrder 1 2 (mkRequest "OPTIONS" "/3/movie/1" "" None)
           NewCacheManager).
  reflexivity.
Defined.





(** X13. Failures on a miss: an error of [http.NewRequest] gives status
    500 and no request upstream; an error of [client.Do] gives status 502;
    an error while reading the body gives status 500, even when the status
    of the upstream answer is 200.  The body is the encoded error and the
    cache manager is unchanged in the three cases. *)
Theorem handler_failures env order tGet tSet r cm :
  Method r ≠ MethodOptions → miss r tGet cm →
  (∀ err,
     NewRequestErr env (Method r) (TMDB_BASE_URL +:+ RequestURI r) = Some err →
     handler env order tGet tSet r cm
     = (jsonResponse StatusInternalServerError (EncodeError env err), [],
        cm)) ∧
  (NewRequestErr env (Method r) (TMDB_BASE_URL +:+ RequestURI r) = None →
   (∀ err,
      Do env (upstreamRequest r) = inl err →
      handler env order tGet tSet r cm
      = (jsonResponse StatusBadGateway (EncodeError env err),
         [upstreamRequest r], cm)) ∧
   (∀ resp err,
      Do env (upstreamRequest r) = inr resp → ReadAll resp = inl err →
      handler env order tGet tSet r cm
      = (jsonResponse StatusInternalServerError (EncodeError env err),
         [upstreamRequest r], cm))).
Proof.
  intros Hm Hmiss. rewrite handler_miss by done. split; [|intros Hnew; split].
  - by intros err ->.
  - intros err Hdo. by rewrite Hnew, Hdo.
  - intros resp err Hdo Hread. by rewrite Hnew, Hdo, Hread.
Qed.

Lemma handler_failures_witness :
  handler (mkEnv (λ _ _, None) (λ _, inl "timeout") String.list_byte_of_string)
          reverseOrder 10 11 (mkRequest "GET" "/3/movie/0" "" None)
          NewCacheManager
  = (jsonResponse StatusBadGateway (String.list_byte_of_string "timeout"),
     [upstreamRequest (mkRequest "GET" "/3/movie/0" "" None)],
     NewCacheManager).
Proof.
  refine (proj1 (proj2 (handler_failures
           (mkEnv (λ _ _, None) (λ _, inl "timeout")
                  String.list_byte_of_string)
           reverseOrder 10 11 (mkRequest "GET" "/3/movie/0" "" None)
           NewCacheManager _ _) _) "timeout" _);
    try reflexivity; discriminate.
Defined.

End handler.

(** * The server *)

Section server.
Implicit Types (env : Env) (order : IterOrder) (r : Request)
  (cm : CacheManager) (evs : list Event).

(** The handler writes to the cache only through [Set], and only what it
    fetched. *)
Lemma handler_exec env order tGet tSet r cm :
  exec (handler env order tGet tSet r) cm = cm ∨
  ∃ body,
    fetched (RequestURI r) body tSet (EvRequest env order tGet tSet r) ∧
    exec (handler env order tGet tSet r) cm
    = exec (Set_ order (RequestURI r) (Some body) tSet) cm.
Proof.
  unfold exec at 1 2.
  destruct (decide (Method r = MethodOptions)) as [Hm|Hm].
  { rewrite handler_OPTIONS_eq by done. by left. }
  destruct ((eval (Get (RequestURI r) tGet) cm).2) eqn:Hhit.
  - rewrite Get_eval in Hhit.
    destruct (cache cm !! RequestURI r) as [e|] eqn:He; [|done].
    unfold After in Hhit.
    destruct (Z.ltb_spec (Expiry e) tGet); [done|].
    rewrite (handler_found _ _ _ _ _ _ e) by done. by left.
  - rewrite handler_miss by done.
    destruct (NewRequestErr _ _ _) eqn:Hnew; [by left|].
    destruct (Do _ _) as [|resp] eqn:Hdo; [by left|].
    destruct (ReadAll resp) as [|body] eqn:Hread; [by left|].
    case_decide as Hcode; [|by left].
    right. exists body. split; [|done]. simpl. eauto 10.
Qed.

Lemma serve_snoc evs ev cm :
  exec (serve (evs ++ [ev])) cm = exec (occur ev) (exec (serve evs) cm).
Proof.
  unfold serve. rewrite exec_forEach_app. simpl. by rewrite exec_bind.
Qed.

Lemma occur_request env order tGet tSet r cm :
  exec (occur (EvRequest env order tGet tSet r)) cm
  = exec (handler env order tGet tSet r) cm.
Proof. simpl. by rewrite exec_bind. Qed.

(** Every entry of the store was fetched by an earlier request for its
    key and expires [CACHE_DURATION] after it was stored. *)
Lemma serve_provenance evs k e :
  cache (exec (serve evs) NewCacheManager) !! k = Some e →
  ∃ ev body t,
    ev ∈ evs ∧ fetched k body t ev ∧
    e = {| Data := Some body; Expiry := t + CACHE_DURATION |}.
Proof.
  revert e. induction evs as [|ev evs IH] using rev_ind; intros e.
  - change (exec (serve []) NewCacheManager) with NewCacheManager.
    simpl. by rewrite lookup_empty.
  - rewrite serve_snoc.
    assert (cache (exec (serve evs) NewCacheManager) !! k = Some e →
            ∃ ev0 body t, ev0 ∈ evs ++ [ev] ∧ fetched k body t ev0 ∧
              e = {| Data := Some body; Expiry := t + CACHE_DURATION |})
      as Hold.
    { intros (ev0 & body & t & Hin & Hf & He)%IH.
      exists ev0, body, t. split; [|done]. apply elem_of_app. by left. }
    destruct ev as [env order tGet tSet r|order now].
    + rewrite occur_request.
      destruct (handler_exec env order tGet tSet r
                  (exec (serve evs) NewCacheManager))
        as [->|(body & Hf & ->)]; [done|].
      rewrite Set_cache. destruct (decide (RequestURI r = k)) as [Hk|Hne].
      * rewrite Hk, lookup_insert_eq. intros [= <-].
        exists (EvRequest env order tGet tSet r), body, tSet.
        split; [apply elem_of_app; right; left|]. rewrite <-Hk. done.
      * rewrite lookup_insert_ne by done. intros He. apply Hold.
        eapply lookup_weaken; [exact He|apply checkCacheSize_subseteq].
    + simpl. rewrite cleanExpiredCache_cache.
      intros [He _]%map_lookup_filter_Some. by apply Hold.
Qed.

(** X15. While the server runs, whatever the requests, the upstream
    answers and the ticks of the cleanup goroutine, the cache never holds
    more than [MAX_CACHE_SIZE + 1] entries. *)
Theorem serve_size evs :
  (size (cache (exec (serve evs) NewCacheManager)) ≤ MAX_CACHE_SIZE + 1)%nat.
Proof.
  induction evs as [|ev evs IH] using rev_ind.
  - change (exec (serve []) NewCacheManager) with NewCacheManager.
    simpl. rewrite map_size_empty. lia.
  - rewrite serve_snoc. destruct ev as [env order tGet tSet r|order now].
    + rewrite occur_request.
      destruct (handler_exec env order tGet tSet r
                  (exec (serve evs) NewCacheManager))
        as [->|(body & _ & ->)]; [done|].
      pose proof (Set_size order (RequestURI r) (Some body) tSet
                    (exec (serve evs) NewCacheManager)).
      pose proof (checkCacheSize_size order
                    (exec (serve evs) NewCacheManager)). lia.
    + simpl. rewrite cleanExpiredCache_cache.
      etransitivity; [|exact IH].
      apply map_subseteq_size, map_filter_subseteq.
Qed.

(** X16. What the proxy serves from its cache is what upstream said: when
    a request is answered from the cache, the body of the answer is a body
    that upstream returned with status 200 to an earlier request for the
    same URI, stored at most [CACHE_DURATION] before, and the cache
    manager is left as it was. *)
Theorem handler_hit_origin evs env order tGet tSet r :
  Method r ≠ MethodOptions →
  (eval (Get (RequestURI r) tGet) (exec (serve evs) NewCacheManager)).2
  = true →
  ∃ ev body t,
    ev ∈ evs ∧ fetched (RequestURI r) body t ev ∧
    tGet ≤ t + CACHE_DURATION ∧
    handler env order tGet tSet r (exec (serve evs) NewCacheManager)
    = (jsonResponse StatusOK body, [], exec (serve evs) NewCacheManager).
Proof.
  intros Hm Hhit. rewrite Get_eval in Hhit.
  destruct (cache (exec (serve evs) NewCacheManager) !! RequestURI r)
    as [e|] eqn:He; [|done].
  unfold After in Hhit. destruct (Z.ltb_spec (Expiry e) tGet); [done|].
  destruct (serve_provenance _ _ _ He) as (ev & body & t & Hin & Hf & ->).
  exists ev, body, t. repeat split; [done..|].
  by rewrite (handler_found _ _ _ _ _ _ _ Hm He).
Qed.
Lemma handler_hit_origin_witness :
  ∃ ev body t,
    ev ∈ [EvRequest
            (mkEnv (λ _ _, None)
                   (λ _, inr (mkResponse 200 (inr [Byte.x78]))) (λ _, []))
            reverseOrder 10 11 (mkRequest "GET" "/3/movie/1" "" None);
          EvTick canonicalOrder 15] ∧
    fetched "/3/movie/1" body t ev ∧
    20 ≤ t + CACHE_DURATION ∧
    handler (mkEnv (λ _ _, None) (λ _, inl "down") (λ _, []))
            canonicalOrder 20 21 (mkRequest "POST" "/3/movie/1" "" None)
            (exec (serve
               [EvRequest
                  (mkEnv (λ _ _, None)
                         (λ _, inr (mkResponse 200 (inr [Byte.x78])))
                         (λ _, []))
                  reverseOrder 10 11 (mkRequest "GET" "/3/movie/1" "" None);
                EvTick canonicalOrder 15]) NewCacheManager)
    = (jsonResponse StatusOK body, [],
       exec (serve
               [EvRequest
                  (mkEnv (λ _ _, None)
                         (λ _, inr (mkResponse 200 (inr [Byte.x78])))
                         (λ _, []))
                  reverseOrder 10 11 (mkRequest "GET" "/3/movie/1" "" None);
                EvTick canonicalOrder 15]) NewCacheManager).
Proof.
  apply (handler_hit_origin
           [EvRequest
              (mkEnv (λ _ _, None)
                     (λ _, inr (mkResponse 200 (inr [Byte.x78]))) (λ _, []))
              reverseOrder 10 11 (mkRequest "GET" "/3/movie/1" "" None);
            EvTick canonicalOrder 15]
           (mkEnv (λ _ _, None) (λ _, inl "down") (λ _, []))
           canonicalOrder 20 21 (mkRequest "POST" "/3/movie/1" "" None)).
  - discriminate.
  - vm_compute. reflexivity.
Defined.
End server.
